(** * worker/ingest.py: the ingestion script and its collaborators

    The script is seven statements of glue around three library objects:
    a directory reader, a sentence splitter and a vector index over a
    Qdrant store.  The statements are embedded as a computation in a state
    and exception monad; every library call is a field of a [Library]
    record, so that the theorems about the script hold for every behaviour
    of the collaborators.  The components the design document describes
    (segmenter, chunk identity, index writer) are modelled further down and
    packaged as one particular [Library]. *)

From Stdlib Require Import ZArith Lia Ascii String Sorted.
From stdpp Require Import base option list strings pretty gmap.

Open Scope Z_scope.

(** ** Exceptions and the call log *)

(** The error kinds of the design document; [OtherError] stands for any
    other Python exception a collaborator can raise. *)
Inductive exn : Type :=
  | ConfigError
  | UnsupportedFormat (detail : string)
  | SegmentationError (detail : string)
  | EmbeddingError (detail : string)
  | StoreUnavailableError
  | StoreWriteError
  | SchemaMismatchError
  | Cancelled
  | OtherError (message : string).

Definition result (A : Type) : Type := (exn + A)%type.

(** One stage per statement of the module body that calls into a library
    (lines 1-3 only bind the library names).  The attribute access and the
    call of line 12 count as one stage. *)
Inductive stage : Type :=
  | SReader      (* SimpleDirectoryReader(...)            line 5  *)
  | SLoad        (* reader.load_data()                    line 6  *)
  | SSplitter    (* SentenceSplitter(...)                 line 7  *)
  | SGetNodes    (* parser.get_nodes_from_documents(...)  line 8  *)
  | SStore       (* QdrantVectorStore(...)                line 10 *)
  | SFromNodes   (* VectorStoreIndex.from_nodes(...)      line 11 *)
  | SPersist.    (* index.storage_context.persist()       line 12 *)

Global Instance stage_eq_dec : EqDecision stage.
Proof. solve_decision. Defined.

Definition stage_index (s : stage) : nat :=
  match s with
  | SReader => 0 | SLoad => 1 | SSplitter => 2 | SGetNodes => 3
  | SStore => 4 | SFromNodes => 5 | SPersist => 6
  end%nat.

Definition all_stages : list stage :=
  [SReader; SLoad; SSplitter; SGetNodes; SStore; SFromNodes; SPersist].

Section Script.
(** The library's own objects are opaque to the script. *)
Context {World Reader Parser VStore Index Doc Node : Type}.

(** What a call is given and what it hands back, as far as the script
    can see it. *)
Inductive payload : Type :=
  | PNone
  | PReaderArgs (input_dir : string) (recursive : bool) (file_extractor : string)
  | PConfig (chunk_size chunk_overlap : Z)
  | PDocuments (documents : list Doc)
  | PNodes (nodes : list Node)
  | PStoreArgs (url collection_name : string)
  | PIndexArgs (nodes : list Node) (embed_model : string).

Inductive event : Type :=
  | Call (s : stage) (arg : payload)
  | Return (s : stage) (res : payload)
  | Raise (s : stage) (e : exn).

(** Every call may change the world outside the interpreter (files, the
    vector database) and either returns or raises. *)
Record Library : Type := {
  SimpleDirectoryReader : string -> bool -> string -> World -> result Reader * World;
  load_data : Reader -> World -> result (list Doc) * World;
  SentenceSplitter : Z -> Z -> World -> result Parser * World;
  get_nodes_from_documents : Parser -> list Doc -> World -> result (list Node) * World;
  QdrantVectorStore : string -> string -> World -> result VStore * World;
  from_nodes : list Node -> VStore -> string -> World -> result Index * World;
  persist : Index -> World -> result unit * World
}.

Record machine : Type := { world : World; trace : list event }.

Definition M (A : Type) : Type := machine -> result A * machine.

Definition ret {A} (a : A) : M A := fun m => (inr a, m).

(** An exception that is not caught ends the module body: the rest of
    the statements are skipped. *)
Definition bind {A B} (c : M A) (k : A -> M B) : M B :=
  fun m =>
    match c m with
    | (inl e, m') => (inl e, m')
    | (inr a, m') => k a m'
    end.

Definition invoke {A} (s : stage) (arg : payload)
    (f : World -> result A * World) (shown : A -> payload) : M A :=
  fun m =>
    match f (world m) with
    | (inl e, w') =>
        (inl e, {| world := w'; trace := trace m ++ [Call s arg; Raise s e] |})
    | (inr a, w') =>
        (inr a, {| world := w'; trace := trace m ++ [Call s arg; Return s (shown a)] |})
    end.

Notation "x <- c ;; k" := (bind c (fun x => k))
  (at level 100, c at next level, right associativity).

Variable lib : Library.

(** The module body, with the two sizing constants of line 7 taken as
    arguments. *)
Definition ingest_with (chunk_size chunk_overlap : Z) : M unit :=
  reader <- invoke SReader (PReaderArgs "/data" true "auto")
              (SimpleDirectoryReader lib "/data" true "auto") (fun _ => PNone) ;;
  documents <- invoke SLoad PNone (load_data lib reader) PDocuments ;;
  parser <- invoke SSplitter (PConfig chunk_size chunk_overlap)
              (SentenceSplitter lib chunk_size chunk_overlap) (fun _ => PNone) ;;
  nodes <- invoke SGetNodes (PDocuments documents)
              (get_nodes_from_documents lib parser documents) PNodes ;;
  store <- invoke SStore (PStoreArgs "http://qdrant:6333" "kb")
              (QdrantVectorStore lib "http://qdrant:6333" "kb") (fun _ => PNone) ;;
  index <- invoke SFromNodes (PIndexArgs nodes "local: bge-small-en")
              (from_nodes lib nodes store "local: bge-small-en") (fun _ => PNone) ;;
  invoke SPersist PNone (persist lib index) (fun _ => PNone).

(** The module body as written: chunk_size=512, chunk_overlap=64. *)
Definition ingest : M unit := ingest_with 512 64.

Definition start (w : World) : machine := {| world := w; trace := [] |}.

(** How a run ends: the interpreter falls off the end of the module, or
    it dies with a traceback. *)
Inductive outcome : Type :=
  | Completed
  | Aborted (e : exn).

Definition outcome_of (r : result unit) : outcome :=
  match r with inl e => Aborted e | inr _ => Completed end.

Definition run_with (chunk_size chunk_overlap : Z) (w : World) : outcome * machine :=
  let '(r, m) := ingest_with chunk_size chunk_overlap (start w) in (outcome_of r, m).

Definition run (w : World) : outcome * machine :=
  let '(r, m) := ingest (start w) in (outcome_of r, m).

(** Reading the log. *)
Definition called (s : stage) (tr : list event) : Prop :=
  ∃ arg, Call s arg ∈ tr.
Definition returned (s : stage) (tr : list event) : Prop :=
  ∃ res, Return s res ∈ tr.
Definition raised (s : stage) (tr : list event) : Prop :=
  ∃ e, Raise s e ∈ tr.

Definition call_stage (ev : event) : option stage :=
  match ev with Call s _ => Some s | _ => None end.

(** The stages entered, in the order they were entered. *)
Definition entered (tr : list event) : list stage := omap call_stage tr.

Definition event_stage (ev : event) : stage :=
  match ev with Call s _ | Return s _ | Raise s _ => s end.

Definition stages_of (tr : list event) : list stage := event_stage <$> tr.

(** The stage of an earlier entry of the log is never later than the stage
    of an entry that follows it. *)
Definition phase_ordered (tr : list event) : Prop :=
  StronglySorted (fun s1 s2 => (stage_index s1 <= stage_index s2)%nat) (stages_of tr).

(** [e1] occurs in the log strictly before [e2]. *)
Definition precedes (e1 e2 : event) (tr : list event) : Prop :=
  ∃ i j, (i < j)%nat ∧ tr !! i = Some e1 ∧ tr !! j = Some e2.

(** The shape of a log.  With [ds] the documents read and [ns] the nodes
    cut from them, statement [s] is called on [step_arg] and hands back
    [step_res]. *)
Definition step_arg (n k : Z) (ds : list Doc) (ns : list Node) (s : stage) : payload :=
  match s with
  | SReader => PReaderArgs "/data" true "auto"
  | SLoad => PNone
  | SSplitter => PConfig n k
  | SGetNodes => PDocuments ds
  | SStore => PStoreArgs "http://qdrant:6333" "kb"
  | SFromNodes => PIndexArgs ns "local: bge-small-en"
  | SPersist => PNone
  end.

Definition step_res (ds : list Doc) (ns : list Node) (s : stage) : payload :=
  match s with
  | SLoad => PDocuments ds
  | SGetNodes => PNodes ns
  | _ => PNone
  end.

Definition completed_steps (n k : Z) (ds : list Doc) (ns : list Node)
    (ss : list stage) : list event :=
  ss ≫= fun s => [Call s (step_arg n k ds ns s); Return s (step_res ds ns s)].

(** A run either goes through all seven statements, or goes through the
    first few and stops at the statement that raises. *)
Inductive run_log (n k : Z) : outcome -> list event -> Prop :=
  | log_completed ds ns :
      run_log n k Completed (completed_steps n k ds ns all_stages)
  | log_aborted ds ns done s rest e :
      all_stages = done ++ s :: rest ->
      run_log n k (Aborted e)
        (completed_steps n k ds ns done ++ [Call s (step_arg n k ds ns s); Raise s e]).

(** The statement that follows [s] in the module body. *)
Definition next_stage (s : stage) : option stage :=
  match s with
  | SReader => Some SLoad
  | SLoad => Some SSplitter
  | SSplitter => Some SGetNodes
  | SGetNodes => Some SStore
  | SStore => Some SFromNodes
  | SFromNodes => Some SPersist
  | SPersist => None
  end.

End Script.

Arguments payload : clear implicits.
Arguments event : clear implicits.
Arguments Library : clear implicits.
Arguments machine : clear implicits.

Section TwoLibraries.
Context {World Reader Parser VStore Index Doc Node : Type}.
Variables lib1 lib2 : Library World Reader Parser VStore Index Doc Node.


End TwoLibraries.

(** ** The components of the design document

    The reader, the splitter, the embedder and the vector store are
    third-party packages; the repository holds only the calls.  What
    follows models them from the design document. *)

(** Python's [str], as the sequence of its characters. *)
Definition text : Type := list ascii.

(** [t[a:b]] for 0 <= a <= b. *)
Definition slice (t : text) (a b : Z) : text :=
  take (Z.to_nat (b - a)) (drop (Z.to_nat a) t).

Record Document : Type := {
  document_id : string;
  raw_text : text;
  metadata : gmap string string
}.

Record Config : Type := { chunk_size : Z; chunk_overlap : Z }.

Record Chunk : Type := {
  chunk_id : string;
  chunk_document_id : string;
  sequence_index : Z;
  chunk_text : text;
  char_start : Z;
  char_end : Z;
  chunk_metadata : gmap string string
}.

(** The precondition on the sizing parameters. *)
Definition valid_config (c : Config) : bool :=
  (0 <? chunk_size c) && (0 <=? chunk_overlap c) && (chunk_overlap c <? chunk_size c).

(** Modelled from the spec: the segmenter's ConfigError condition,
    chunk_overlap >= chunk_size or chunk_size <= 0; the check itself lives
    in the splitter package, which is not part of the repository. *)
Definition config_error (c : Config) : bool :=
  (chunk_size c <=? chunk_overlap c) || (chunk_size c <=? 0).

(** Modelled from the spec: the walk of the segmenter (the splitter
    package is not part of the repository).  Windows of length [n] start at
    offset 0 and advance by [stride]; the window that reaches the end of a
    text of length [len] is cut to what remains and is the last one; with
    nothing remaining no window is produced.  [fuel] bounds the number of
    windows. *)
Fixpoint windows (fuel : nat) (len n stride start : Z) : list (Z * Z) :=
  match fuel with
  | O => []
  | S fuel' =>
      let remaining := len - start in
      if remaining <=? 0 then []
      else if remaining <=? n then [(start, len)]
      else (start, start + n) :: windows fuel' len n stride (start + stride)
  end.

Definition text_length (t : text) : Z := Z.of_nat (length t).


Definition spans (t : text) (c : Config) : list (Z * Z) :=
  windows (length t) (text_length t) (chunk_size c)
          (chunk_size c - chunk_overlap c) 0.

Section Components.
(** Chunk identity and the embedder are contracts only: a function of
    (document_id, sequence_index, text), and a function of the chunk text
    that may fail. *)
Context {Vec : Type}.
Variable identify : string -> Z -> text -> string.
Variable embed : text -> result Vec.

Definition make_chunk (d : Document) (i : nat) (w : Z * Z) : Chunk :=
  let t := slice (raw_text d) w.1 w.2 in
  {| chunk_id := identify (document_id d) (Z.of_nat i) t;
     chunk_document_id := document_id d;
     sequence_index := Z.of_nat i;
     chunk_text := t;
     char_start := w.1;
     char_end := w.2;
     chunk_metadata := metadata d |}.

(** Modelled from the spec: [segment(document, config)] of the Segmenter
    component. *)
Definition segment (d : Document) (c : Config) : result (list Chunk) :=
  if config_error c then inl ConfigError
  else inr (imap (make_chunk d) (spans (raw_text d) c)).

(** The text of a chunk sequence with the overlaps removed: of every chunk
    but the first, the characters before the previous chunk's end are
    dropped. *)
Fixpoint strip_overlaps (prev_end : Z) (cs : list Chunk) : text :=
  match cs with
  | [] => []
  | c :: cs' =>
      drop (Z.to_nat (prev_end - char_start c)) (chunk_text c)
        ++ strip_overlaps (char_end c) cs'
  end.

Definition reconstruct (cs : list Chunk) : text := strip_overlaps 0 cs.

Record IndexRecord : Type := {
  record_id : string;
  record_vector : Vec;
  record_text : text;
  record_payload : Chunk
}.

(** Modelled from the spec: [embed_batch], length- and order-preserving,
    failing as a whole when one text is rejected. *)
Fixpoint embed_batch (ts : list text) : result (list Vec) :=
  match ts with
  | [] => inr []
  | t :: ts' =>
      match embed t with
      | inl e => inl e
      | inr v =>
          match embed_batch ts' with
          | inl e => inl e
          | inr vs => inr (v :: vs)
          end
      end
  end.

(** Modelled from the spec: [upsert_batch] of the IndexWriter, insert or
    replace by id. *)
Definition upsert (store : gmap string IndexRecord) (r : IndexRecord)
    : gmap string IndexRecord :=
  <[record_id r := r]> store.

Definition upsert_batch (records : list IndexRecord)
    (store : gmap string IndexRecord) : gmap string IndexRecord :=
  foldl upsert store records.

Definition make_record (c : Chunk) (v : Vec) : IndexRecord :=
  {| record_id := chunk_id c; record_vector := v;
     record_text := chunk_text c; record_payload := c |}.

(** A file under the source directory: its text can be extracted, or its
    format is not supported. *)
Inductive file : Type :=
  | Readable (d : Document)
  | Unreadable (path : string).

Record corpus_world : Type := {
  files : list file;
  collection : gmap string IndexRecord
}.

(** Modelled from the spec: the DocumentSource.  A file whose format is
    not supported is skipped; it is no error of the run. *)
Fixpoint read_files (fs : list file) : result (list Document) :=
  match fs with
  | [] => inr []
  | Unreadable _ :: fs' => read_files fs'
  | Readable d :: fs' =>
      match read_files fs' with
      | inl e => inl e
      | inr ds => inr (d :: ds)
      end
  end.

Fixpoint segment_all (c : Config) (ds : list Document) : result (list Chunk) :=
  match ds with
  | [] => inr []
  | d :: ds' =>
      match segment d c with
      | inl e => inl e
      | inr cs =>
          match segment_all c ds' with
          | inl e => inl e
          | inr rest => inr (cs ++ rest)
          end
      end
  end.

(** Modelled from the spec: the collaborators of the script, put together
    from the components above.  The sizing parameters are checked when the
    splitter is built; the index build embeds every chunk and then upserts
    the records. *)
Definition components : Library corpus_world string Config string unit Document Chunk :=
  {| SimpleDirectoryReader := fun input_dir _ _ w => (inr input_dir, w);
     load_data := fun _ w => (read_files (files w), w);
     SentenceSplitter := fun n k w =>
       let c := {| chunk_size := n; chunk_overlap := k |} in
       (if config_error c then inl ConfigError else inr c, w);
     get_nodes_from_documents := fun c ds w => (segment_all c ds, w);
     QdrantVectorStore := fun _ name w => (inr name, w);
     from_nodes := fun nodes _ _ w =>
       match embed_batch (map chunk_text nodes) with
       | inl e => (inl e, w)
       | inr vs =>
           (inr tt,
            {| files := files w;
               collection := upsert_batch (zip_with make_record nodes vs) (collection w) |})
       end;
     persist := fun _ w => (inr tt, w) |}.

End Components.

(** The chunk ids a run produced: those of the nodes that segmentation
    handed back. *)
Definition produced_ids (tr : list (event Document Chunk)) : list string :=
  tr ≫= fun ev =>
    match ev with
    | Return SGetNodes (PNodes ns) => chunk_id <$> ns
    | _ => []
    end.

(** ** A small corpus for the examples *)

(** An identity function for the examples: the concatenation of
    document_id, sequence_index and text that the design document
    recommends hashing, left as it is. *)
Definition concat_identify (doc_id : string) (i : Z) (t : text) : string :=
  doc_id +:+ ":" +:+ pretty i +:+ ":" +:+ string_of_list_ascii t.

(** An embedder for the examples: it rejects the empty string, as the
    contract says, and maps any other text to a vector of one number. *)
Definition length_embed (t : text) : result (list Z) :=
  match t with
  | [] => inl (EmbeddingError "empty string")
  | _ => inr [text_length t]
  end.

Definition doc (name : string) (body : string) : Document :=
  {| document_id := name; raw_text := list_ascii_of_string body; metadata := ∅ |}.

Definition default_config : Config := {| chunk_size := 512; chunk_overlap := 64 |}.

Definition small_config : Config := {| chunk_size := 3; chunk_overlap := 1 |}.

Definition alphabet : Document := doc "alphabet.txt" "abcdefg".

Definition empty_document : Document := doc "empty.txt" "".

(** An embedder with a bound on its input: it rejects the empty string and
    any text of more than four characters. *)
Definition limited_embed (t : text) : result (list Z) :=
  if 4 <? text_length t then inl (EmbeddingError "input too long")
  else length_embed t.

(** Five files, of which the third cannot be extracted. *)
Definition five_files : list file :=
  [Readable (doc "1.txt" "one"); Readable (doc "2.txt" "two");
   Unreadable "3.bin";
   Readable (doc "4.txt" "four"); Readable (doc "5.txt" "five")].

(** Five readable documents; the third is too long for [limited_embed]. *)
Definition five_documents : list file :=
  [Readable (doc "1.txt" "one"); Readable (doc "2.txt" "two");
   Readable (doc "3.txt" "three");
   Readable (doc "4.txt" "four"); Readable (doc "5.txt" "five")].

Definition five_document_world : corpus_world (Vec := list Z) :=
  {| files := five_documents; collection := ∅ |}.

(** Two files, both readable. *)
Definition two_file_world : corpus_world (Vec := list Z) :=
  {| files := [Readable (doc "1.txt" "one"); Readable alphabet]; collection := ∅ |}.

Definition demo_components :=
  components (Vec := list Z) concat_identify length_embed.

Definition limited_components :=
  components (Vec := list Z) concat_identify limited_embed.


(** * Properties of the script, for every behaviour of the libraries *)

Section ScriptFacts.
Context {World Reader Parser VStore Index Doc Node : Type}.
Variable lib : Library World Reader Parser VStore Index Doc Node.

Ltac next_call e a :=
  match goal with
  | |- context [match ?f ?w with pair _ _ => _ end] =>
      let w' := fresh "w" in
      destruct (f w) as [[e | a] w'] eqn:?; simpl
  end.

Lemma run_with_log n k w :
  run_log n k (run_with lib n k w).1 (trace (run_with lib n k w).2).
Proof.
  unfold run_with, ingest_with, bind, invoke, start; simpl.
  next_call e reader.
  { by eapply (log_aborted n k [] [] [] SReader). }
  next_call e ds.
  { by eapply (log_aborted n k [] [] [SReader] SLoad). }
  next_call e parser.
  { by eapply (log_aborted n k ds [] [SReader; SLoad] SSplitter). }
  next_call e ns.
  { by eapply (log_aborted n k ds [] [SReader; SLoad; SSplitter] SGetNodes). }
  next_call e store.
  { by eapply (log_aborted n k ds ns [SReader; SLoad; SSplitter; SGetNodes] SStore). }
  next_call e ix.
  { by eapply (log_aborted n k ds ns
                 [SReader; SLoad; SSplitter; SGetNodes; SStore] SFromNodes). }
  next_call e u.
  { by eapply (log_aborted n k ds ns
                 [SReader; SLoad; SSplitter; SGetNodes; SStore; SFromNodes] SPersist). }
  apply (log_completed n k ds ns).
Qed.

(** Case analysis on the log of a run: completed, or stopped at one of the
    seven statements. *)
Ltac log_cases n k w :=
  let H := fresh "Hlog" in
  pose proof (run_with_log n k w) as H;
  destruct (run_with lib n k w) as [? [? ?]]; simpl in *;
  inversion H as [ds ns | ds ns done s rest e Hsplit]; subst; clear H;
  [ | unfold all_stages in Hsplit;
      repeat (destruct done as [| ? done]; simplify_eq/=) ];
  unfold completed_steps, all_stages; simpl.

Lemma in_log_inv (e a b : event Doc Node) (l : list (event Doc Node)) :
  e ∈ a :: b :: l -> e = a ∨ e = b ∨ e ∈ l.
Proof. rewrite !elem_of_cons. tauto. Qed.

Ltac in_log H :=
  repeat (apply in_log_inv in H; destruct H as [H | [H | H]]; simplify_eq);
  try (by apply elem_of_nil in H).

Ltac in_log_all :=
  repeat match goal with
         | H : _ ∈ _ :: _ |- _ => in_log H
         | H : called _ _ |- _ => destruct H as [? H]
         | H : returned _ _ |- _ => destruct H as [? H]
         | H : raised _ _ |- _ => destruct H as [? H]
         end.

Ltac here := eexists; apply list_elem_of_In; simpl; tauto.

(** C10: the explicit persist of line 12 is executed if and only if every
    statement before it (directory read, splitter, segmentation, store
    handle, embedding and index construction) returned; when one of them
    raised, persist is not executed. *)
Theorem persist_iff_all_returned (w : World) :
  let tr := trace (run lib w).2 in
  (called SPersist tr ↔ ∀ s, s ≠ SPersist -> returned s tr) ∧
  (∀ s, s ≠ SPersist -> raised s tr -> ¬ called SPersist tr).
Proof.
  change (run lib w) with (run_with lib 512 64 w).
  log_cases 512 64 w.
  all: split; [split |].
  all: try (intros Hc; in_log_all; fail).
  all: try (intros _ s Hs; destruct s; try done; here).
  all: try (intros _; here).
  all: try (intros s Hs Hr Hc; in_log_all; done).
  - intros Hall. destruct (Hall SReader) as [? H]; [done | in_log H].
  - intros Hall. destruct (Hall SLoad) as [? H]; [done | in_log H].
  - intros Hall. destruct (Hall SSplitter) as [? H]; [done | in_log H].
  - intros Hall. destruct (Hall SGetNodes) as [? H]; [done | in_log H].
  - intros Hall. destruct (Hall SStore) as [? H]; [done | in_log H].
  - intros Hall. destruct (Hall SFromNodes) as [? H]; [done | in_log H].
Qed.

(** C8: the phases follow each other over the whole corpus.  The
    statements are entered in source order, each at most once, and no entry
    of the log belongs to an earlier statement than an entry before it; the
    segmentation call is given the very list that the directory read
    returned, after it returned; the index build is given the very list of
    nodes that segmentation returned, after it returned; and persist is
    entered at most once, after the index build has returned. *)
Theorem phases_in_source_order (w : World) :
  let tr := trace (run lib w).2 in
  entered tr `prefix_of` all_stages ∧
  NoDup (entered tr) ∧
  phase_ordered tr ∧
  (∀ arg, Call SGetNodes arg ∈ tr ->
     ∃ ds, arg = PDocuments ds ∧
           precedes (Return SLoad (PDocuments ds)) (Call SGetNodes arg) tr) ∧
  (∀ arg, Call SFromNodes arg ∈ tr ->
     ∃ ns, arg = PIndexArgs ns "local: bge-small-en" ∧
           precedes (Return SGetNodes (PNodes ns)) (Call SFromNodes arg) tr) ∧
  (∀ arg, Call SPersist arg ∈ tr ->
     precedes (Return SFromNodes PNone) (Call SPersist arg) tr).
Proof.
  change (run lib w) with (run_with lib 512 64 w).
  log_cases 512 64 w.
  all: split_and!.
  all: try (by eexists).
  all: try (unfold phase_ordered; simpl; repeat constructor; fail).
  all: try (by apply (bool_decide_unpack _)).
  all: try (intros arg Hin; in_log Hin; fail).
  all: try (intros arg Hin; in_log Hin; eexists; split; [done |];
            first [ exists 3%nat, 6%nat; split_and!; [lia | done | done]
                  | exists 7%nat, 10%nat; split_and!; [lia | done | done] ]).
  all: intros arg Hin; in_log Hin; exists 11%nat, 12%nat; split_and!; [lia | done | done].
Qed.

(** The sizing parameters handed to the splitter are the two literals of
    line 7, whatever the libraries do. *)
Lemma splitter_called_with_literals (w : World) (arg : payload Doc Node) :
  Call SSplitter arg ∈ trace (run lib w).2 -> arg = PConfig 512 64.
Proof.
  change (run lib w) with (run_with lib 512 64 w).
  log_cases 512 64 w; intros Hin; in_log Hin; done.
Qed.

(** C7, as the script has it: there is no handler around any statement.
    When a library call raises, for whatever document, the run ends with
    that exception as its outcome; the raise is the last entry of the log,
    and no later statement is entered.  A run completes only if nothing
    was raised. *)
Theorem failure_aborts_run (w : World) (failing : stage) (err : exn) :
  Raise failing err ∈ trace (run lib w).2 ->
  (run lib w).1 = Aborted err ∧
  last (trace (run lib w).2) = Some (Raise failing err) ∧
  (∀ s', (stage_index failing < stage_index s')%nat ->
         ¬ called s' (trace (run lib w).2)) ∧
  (run lib w).1 ≠ Completed.
Proof.
  change (run lib w) with (run_with lib 512 64 w).
  log_cases 512 64 w; intros Hin; in_log Hin.
  all: split_and!; try done.
  all: intros s' Hlt Hc; destruct s'; simpl in Hlt; try lia; in_log_all.
Qed.

(** ** Further properties of the module body *)

(** X1: no exception is swallowed and none is made up.  The run completes
    exactly when nothing was raised, which is exactly when all seven
    statements returned; it aborts with [err] exactly when [err] was raised
    by some statement; and a log holds at most one raise. *)
Theorem outcome_accounts_for_raises (w : World) :
  let tr := trace (run lib w).2 in
  ((run lib w).1 = Completed ↔ ∀ st, ¬ raised st tr) ∧
  ((run lib w).1 = Completed ↔ ∀ st, returned st tr) ∧
  (∀ err, (run lib w).1 = Aborted err ↔ ∃ st, Raise st err ∈ tr) ∧
  (∀ st1 err1 st2 err2,
     Raise st1 err1 ∈ tr -> Raise st2 err2 ∈ tr -> st1 = st2 ∧ err1 = err2).
Proof.
  change (run lib w) with (run_with lib 512 64 w).
  log_cases 512 64 w.
  all: split_and!.
  all: try (intros st1 err1 st2 err2 H1 H2; in_log H1; in_log H2; done).
  all: try (intros err; split;
            [ intros [= <-]; eexists; apply list_elem_of_In; simpl; tauto
            | intros [st Hin]; in_log Hin; done ]).
  all: try (split; [intros _ st Hr; in_log_all | done]).
  all: try (split; [intros _ st; destruct st; here | done]).
  all: split; try done; intros Hall; exfalso.
  all: try (eapply Hall; here).
  - destruct (Hall SReader) as [? H]; in_log H.
  - destruct (Hall SLoad) as [? H]; in_log H.
  - destruct (Hall SSplitter) as [? H]; in_log H.
  - destruct (Hall SGetNodes) as [? H]; in_log H.
  - destruct (Hall SStore) as [? H]; in_log H.
  - destruct (Hall SFromNodes) as [? H]; in_log H.
  - destruct (Hall SPersist) as [? H]; in_log H.
Qed.

(** X3: the module body has no branch on data.  Whenever a statement
    returns, whatever it returned (an empty list of documents or of nodes
    included), the next statement is entered; only the return of persist
    ends the run, and then the run has completed. *)
Theorem return_enters_next_statement (w : World) (st : stage) (res : payload Doc Node) :
  Return st res ∈ trace (run lib w).2 ->
  match next_stage st with
  | Some st' => called st' (trace (run lib w).2)
  | None => (run lib w).1 = Completed
  end.
Proof.
  change (run lib w) with (run_with lib 512 64 w).
  log_cases 512 64 w; intros Hin; in_log Hin; simpl; try done; here.
Qed.

(** X4: when a statement raises, every statement before it was entered and
    returned: the statements entered are exactly the module body up to and
    including the one that raised. *)
Theorem statements_before_failure_returned (w : World) (failing : stage) (err : exn) :
  Raise failing err ∈ trace (run lib w).2 ->
  entered (trace (run lib w).2) = take (S (stage_index failing)) all_stages ∧
  (∀ st, (stage_index st < stage_index failing)%nat ->
         returned st (trace (run lib w).2)) ∧
  ¬ returned failing (trace (run lib w).2).
Proof.
  change (run lib w) with (run_with lib 512 64 w).
  log_cases 512 64 w; intros Hin; in_log Hin.
  all: split_and!; [done | | intros Hr; in_log_all].
  all: intros st Hlt; destruct st; simpl in Hlt; try lia; here.
Qed.

End ScriptFacts.

(** * The segmenter *)

(** ** Slices of a text *)

Lemma slice_drop (t : text) (a p b : Z) :
  0 <= a <= p ->
  drop (Z.to_nat (p - a)) (slice t a b) = slice t p b.
Proof.
  intros Hap. unfold slice.
  destruct (Z_lt_le_dec b p) as [Hlt | Hle].
  - replace (Z.to_nat (b - p)) with 0%nat by lia.
    rewrite take_0. apply drop_ge. rewrite length_take. lia.
  - replace (Z.to_nat p) with (Z.to_nat a + Z.to_nat (p - a))%nat by lia.
    rewrite <- drop_drop.
    rewrite (take_drop_commute _ (Z.to_nat (b - p)) (Z.to_nat (p - a))).
    f_equal. f_equal. lia.
Qed.

Lemma slice_app (t : text) (p b e : Z) :
  0 <= p <= b -> b <= e ->
  slice t p b ++ slice t b e = slice t p e.
Proof.
  intros Hpb Hbe. unfold slice.
  replace (Z.to_nat b) with (Z.to_nat p + Z.to_nat (b - p))%nat by lia.
  rewrite <- drop_drop, take_take_drop. f_equal. lia.
Qed.

Lemma slice_all (t : text) : slice t 0 (text_length t) = t.
Proof.
  unfold slice, text_length. simpl. rewrite drop_0.
  apply take_ge. lia.
Qed.

Lemma slice_empty (t : text) (a b : Z) : b <= a -> slice t a b = [].
Proof.
  intros Hba. unfold slice.
  replace (Z.to_nat (b - a)) with 0%nat by lia. apply take_0.
Qed.

Lemma slice_length (t : text) (a b : Z) :
  0 <= a <= b -> b <= text_length t ->
  text_length (slice t a b) = b - a.
Proof.
  intros Hab Hb. unfold slice, text_length in *.
  rewrite length_take, length_drop. lia.
Qed.

(** ** The walk *)

Section Walk.
Variables len n stride : Z.
Hypothesis stride_pos : 0 < stride.
Hypothesis stride_le : stride <= n.

Lemma windows_head fuel start a b :
  windows fuel len n stride start !! 0%nat = Some (a, b) -> a = start.
Proof.
  destruct fuel as [| fuel]; simpl; [done |].
  repeat case_match; simpl; intros; simplify_eq; done.
Qed.

(** Two windows that follow each other: the first has the full length and
    stops short of the end of the text, the second starts one stride
    later. *)
Lemma windows_consecutive fuel start i a b a' b' :
  windows fuel len n stride start !! i = Some (a, b) ->
  windows fuel len n stride start !! S i = Some (a', b') ->
  b = a + n ∧ a' = a + stride ∧ b < len.
Proof.
  revert start i. induction fuel as [| fuel IH]; intros start i; simpl; [done |].
  repeat case_match; simpl; try done.
  destruct i as [| i]; simpl.
  - intros [= <- <-] Hnext. apply windows_head in Hnext. lia.
  - apply IH.
Qed.

(** Every window is a non-empty span of the text, cut at the end of the
    text and otherwise [n] long. *)
Lemma windows_bounds fuel start i a b :
  0 <= start -> 0 < n ->
  windows fuel len n stride start !! i = Some (a, b) ->
  start <= a ∧ a < b ∧ b <= len ∧ b = Z.min (a + n) len.
Proof.
  revert start i. induction fuel as [| fuel IH]; intros start i Hs Hn; simpl; [done |].
  repeat case_match; simpl; try done.
  - destruct i; simpl; [| done]. intros [= <- <-]. lia.
  - destruct i as [| i]; simpl.
    + intros [= <- <-]. lia.
    + intros Hi. apply IH in Hi; lia.
Qed.

(** With fuel for every character that is left, the walk ends with the
    window that reaches the end of the text. *)
Lemma windows_last fuel start :
  len - start <= Z.of_nat fuel -> 0 < len - start ->
  ∃ a, last (windows fuel len n stride start) = Some (a, len).
Proof.
  revert start. induction fuel as [| fuel IH]; intros start Hf Hrem; [lia |].
  simpl. repeat case_match; try lia.
  - by eexists.
  - destruct (IH (start + stride)) as [a Ha]; [lia | lia |].
    exists a. rewrite last_cons, Ha. done.
Qed.

Lemma windows_short fuel start :
  0 < len - start <= n ->
  windows (S fuel) len n stride start = [(start, len)].
Proof. intros H. simpl. repeat case_match; try lia. done. Qed.

Lemma windows_exhausted fuel start :
  len - start <= 0 -> windows fuel len n stride start = [].
Proof. intros H. destruct fuel; simpl; [done |]. case_match; [done | lia]. Qed.

(** One unit of fuel for every character that is left is enough: more fuel
    gives the same windows. *)
Lemma windows_enough_fuel fuel fuel' start :
  len - start <= Z.of_nat fuel -> (fuel <= fuel')%nat ->
  windows fuel' len n stride start = windows fuel len n stride start.
Proof.
  revert fuel' start. induction fuel as [| fuel IH]; intros fuel' start Hf Hle.
  - by rewrite !windows_exhausted by lia.
  - destruct fuel' as [| fuel']; [lia |]. simpl.
    repeat case_match; try done.
    f_equal. apply IH; lia.
Qed.

End Walk.

Example spans_of_960_characters :
  spans (replicate 960 "a"%char) default_config = [(0, 512); (448, 960)].
Proof. reflexivity. Qed.

Example spans_with_wide_overlap :
  spans (replicate 13 "a"%char) {| chunk_size := 10; chunk_overlap := 8 |}
  = [(0, 10); (2, 12); (4, 13)].
Proof. reflexivity. Qed.

Example spans_without_overlap :
  spans (replicate 20 "a"%char) {| chunk_size := 10; chunk_overlap := 0 |}
  = [(0, 10); (10, 20)].
Proof. reflexivity. Qed.

Example chunks_of_alphabet :
  match segment concat_identify alphabet small_config with
  | inr cs => chunk_text <$> cs = list_ascii_of_string <$> ["abc"; "cde"; "efg"]
  | inl _ => False
  end.
Proof. reflexivity. Qed.

(** ** Chunks of a document *)

Lemma valid_config_bounds (c : Config) :
  valid_config c = true ->
  0 < chunk_size c ∧ 0 <= chunk_overlap c ∧ chunk_overlap c < chunk_size c.
Proof. unfold valid_config. lia. Qed.

Lemma valid_config_no_error (c : Config) :
  valid_config c = true -> config_error c = false.
Proof. unfold valid_config, config_error. lia. Qed.

Section SegmenterFacts.
Variable identify : string -> Z -> text -> string.


Lemma segment_valid (d : Document) (c : Config) :
  valid_config c = true ->
  segment identify d c = inr (imap (make_chunk identify d) (spans (raw_text d) c)).
Proof. intros Hv. unfold segment. by rewrite valid_config_no_error. Qed.

Lemma lookup_chunk (d : Document) (ws : list (Z * Z)) (i : nat) (ch : Chunk) :
  imap (make_chunk identify d) ws !! i = Some ch ->
  ∃ a b, ws !! i = Some (a, b) ∧ ch = make_chunk identify d i (a, b).
Proof.
  rewrite list_lookup_imap. destruct (ws !! i) as [[a b] |]; simpl; [| done].
  intros [= <-]. by exists a, b.
Qed.


(** Dropping from every chunk what the chunk before it already covers
    leaves the text from the previous end onwards.  [g] is [make_chunk]
    with its index shifted. *)
Lemma strip_overlaps_windows (t : text) (n stride : Z) (g : nat -> Z * Z -> Chunk) :
  0 < stride -> stride <= n ->
  (∀ i w, char_start (g i w) = w.1 ∧ char_end (g i w) = w.2 ∧
          chunk_text (g i w) = slice t w.1 w.2) ->
  ∀ fuel start prev_end,
    0 <= start <= prev_end -> prev_end <= start + n ->
    text_length t - start <= Z.of_nat fuel ->
    strip_overlaps prev_end (imap g (windows fuel (text_length t) n stride start))
    = slice t prev_end (text_length t).
Proof.
  intros Hs Hsn Hg fuel. revert g Hg.
  induction fuel as [| fuel IH]; intros g Hg start pe Hpe Hpn Hfuel; simpl.
  - symmetry. apply slice_empty. lia.
  - repeat case_match; simpl.
    + symmetry. apply slice_empty. lia.
    + destruct (Hg 0%nat (start, text_length t)) as (-> & _ & ->). simpl.
      rewrite app_nil_r. apply slice_drop. lia.
    + destruct (Hg 0%nat (start, start + n)) as (-> & -> & ->). simpl.
      rewrite slice_drop by lia.
      rewrite IH; [| intros i w; apply (Hg (S i) w) | lia ..].
      apply slice_app; lia.
Qed.

Lemma make_chunk_fields (d : Document) (i : nat) (w : Z * Z) :
  char_start (make_chunk identify d i w) = w.1 ∧
  char_end (make_chunk identify d i w) = w.2 ∧
  chunk_text (make_chunk identify d i w) = slice (raw_text d) w.1 w.2.
Proof. done. Qed.

End SegmenterFacts.



(** C2: under a valid configuration the chunks of a document, with the
    overlaps removed, concatenate back to the document's text.  Every chunk
    carries its position in the sequence and the characters of its own
    span; consecutive spans advance and leave no gap, so nothing is lost and
    nothing outside an overlap is repeated. *)
Theorem segment_reconstructs (identify : string -> Z -> text -> string)
    (d : Document) (c : Config) :
  valid_config c = true ->
  ∃ cs, segment identify d c = inr cs ∧
    reconstruct cs = raw_text d ∧
    (∀ i ch, cs !! i = Some ch ->
       sequence_index ch = Z.of_nat i ∧
       chunk_text ch = slice (raw_text d) (char_start ch) (char_end ch) ∧
       0 <= char_start ch ∧ char_start ch < char_end ch ∧
       char_end ch <= text_length (raw_text d)) ∧
    (∀ i ci cj, cs !! i = Some ci -> cs !! S i = Some cj ->
       char_start ci < char_start cj ∧ char_start cj <= char_end ci ∧
       char_end ci < char_end cj).
Proof.
  intros Hv. pose proof (valid_config_bounds c Hv) as (Hn & Hk & Hkn).
  eexists. split; [by apply segment_valid |]. split_and!.
  - unfold reconstruct, spans.
    rewrite (strip_overlaps_windows (raw_text d)); try lia.
    + apply slice_all.
    + apply make_chunk_fields.
    + unfold text_length. lia.
  - intros i ch (a & b & Hw & ->)%lookup_chunk. simpl.
    apply windows_bounds in Hw; [| lia ..]. split_and!; try done; lia.
  - intros i ci cj (a & b & Hi & ->)%lookup_chunk (a' & b' & Hj & ->)%lookup_chunk.
    simpl. unfold spans in *.
    destruct (windows_consecutive _ _ _ _ _ _ _ _ _ _ Hi Hj) as (-> & -> & Hb).
    apply windows_bounds in Hj; [| lia ..]. lia.
Qed.

Lemma segment_reconstructs_witness :
  valid_config small_config = true ∧
  ∃ cs, segment concat_identify alphabet small_config = inr cs ∧
        reconstruct cs = raw_text alphabet.
Proof.
  split; [reflexivity |].
  destruct (segment_reconstructs concat_identify alphabet small_config eq_refl)
    as (cs & Hseg & Hrec & _).
  exists cs. split; [exact Hseg | exact Hrec].
Defined.

Lemma last_chunk (identify : string -> Z -> text -> string) (d : Document)
    (ws : list (Z * Z)) (ch : Chunk) :
  last (imap (make_chunk identify d) ws) = Some ch ->
  ∃ a b, last ws = Some (a, b) ∧ char_start ch = a ∧ char_end ch = b ∧
         chunk_text ch = slice (raw_text d) a b.
Proof.
  rewrite !last_lookup, length_imap.
  intros (a & b & Hw & ->)%lookup_chunk. by exists a, b.
Qed.

(** C5 on the empty document: its length is within chunk_size, and the
    segmenter emits no chunk for it, so it does not emit exactly one. *)
Lemma empty_document_has_no_chunk :
  valid_config default_config = true ∧
  text_length (raw_text empty_document) <= chunk_size default_config ∧
  ¬ ∃ ch, segment concat_identify empty_document default_config = inr [ch].
Proof.
  split_and!; [reflexivity | by vm_compute |].
  intros [ch Hch]. vm_compute in Hch. discriminate Hch.
Qed.

(** C5, amended for the empty document: under a valid configuration, a
    non-empty text no longer than chunk_size gives exactly one chunk, which
    covers the whole text; an empty text gives no chunk.  For every
    document the last chunk ends where the text ends and holds exactly the
    characters that remained from its start, and no chunk is empty or
    longer than chunk_size. *)
Theorem segment_short_and_final (identify : string -> Z -> text -> string)
    (d : Document) (c : Config) :
  valid_config c = true ->
  (0 < text_length (raw_text d) <= chunk_size c ->
     ∃ ch, segment identify d c = inr [ch] ∧
           char_start ch = 0 ∧ char_end ch = text_length (raw_text d) ∧
           chunk_text ch = raw_text d) ∧
  (text_length (raw_text d) = 0 -> segment identify d c = inr []) ∧
  ∃ cs, segment identify d c = inr cs ∧
    (∀ ch, last cs = Some ch ->
       char_end ch = text_length (raw_text d) ∧
       text_length (chunk_text ch) = text_length (raw_text d) - char_start ch) ∧
    (∀ ch, ch ∈ cs ->
       chunk_text ch ≠ [] ∧
       0 < text_length (chunk_text ch) ∧
       text_length (chunk_text ch) = char_end ch - char_start ch ∧
       text_length (chunk_text ch) <= chunk_size c).
Proof.
  intros Hv. pose proof (valid_config_bounds c Hv) as (Hn & Hk & Hkn).
  rewrite (segment_valid identify d c Hv). unfold spans. split_and!.
  - intros Hlen.
    destruct (length (raw_text d)) as [| fuel] eqn:Hfuel;
      [unfold text_length in Hlen; lia |].
    rewrite windows_short by lia. simpl. eexists. split_and!; try done.
    simpl. apply slice_all.
  - intros Hlen. by rewrite windows_exhausted by lia.
  - eexists. split; [done |]. split.
    + intros ch (a & b & Hlast & -> & -> & ->)%last_chunk.
      destruct (Z_le_gt_dec (text_length (raw_text d)) 0) as [Hz | Hpos].
      { rewrite windows_exhausted in Hlast by lia. done. }
      destruct (windows_last (text_length (raw_text d)) (chunk_size c)
                  (chunk_size c - chunk_overlap c))
        with (fuel := length (raw_text d)) (start := 0) as [a' Ha'];
        [unfold text_length in *; lia .. |].
      rewrite Ha' in Hlast. injection Hlast as <- <-.
      rewrite last_lookup in Ha'.
      apply windows_bounds in Ha'; [| lia ..].
      rewrite slice_length; lia.
    + intros ch (i & (a & b & Hw & ->)%lookup_chunk)%list_elem_of_lookup. simpl.
      apply windows_bounds in Hw; [| lia ..].
      assert (text_length (slice (raw_text d) a b) = b - a) as Hlen
        by (apply slice_length; lia).
      split_and!; try lia.
      intros Hnil. rewrite Hnil in Hlen. unfold text_length in Hlen. simpl in Hlen. lia.
Qed.

Lemma segment_short_and_final_witness :
  valid_config default_config = true ∧
  0 < text_length (raw_text alphabet) <= chunk_size default_config ∧
  ∃ ch, segment concat_identify alphabet default_config = inr [ch] ∧
        chunk_text ch = raw_text alphabet.
Proof.
  split; [reflexivity |]. split; [by vm_compute |].
  destruct (segment_short_and_final concat_identify alphabet default_config eq_refl)
    as (Hone & _).
  destruct Hone as (ch & Hseg & _ & _ & Htext); [by vm_compute |].
  exists ch. split; [exact Hseg | exact Htext].
Defined.

(** * The script over the modelled components *)

Section Pipeline.
Context {Vec : Type}.
Variable identify : string -> Z -> text -> string.
Variable embed : text -> result Vec.

Lemma segment_all_valid (c : Config) (ds : list Document) :
  config_error c = false -> ∃ ns, segment_all identify c ds = inr ns.
Proof.
  intros Hc. induction ds as [| d ds [ns IH]]; simpl; [by eexists |].
  unfold segment. rewrite Hc, IH. by eexists.
Qed.

Lemma embed_batch_length (ts : list text) (vs : list Vec) :
  embed_batch embed ts = inr vs -> length vs = length ts.
Proof.
  revert vs. induction ts as [| t ts IH]; simpl; intros vs.
  - by intros [= <-].
  - destruct (embed t); [done |].
    destruct (embed_batch embed ts); [done |].
    intros [= <-]. simpl. f_equal. by apply IH.
Qed.

(** A later write of an id hides an earlier write of the same id. *)
Lemma upsert_batch_absorbs (rs : list (@IndexRecord Vec)) (r r' : IndexRecord)
    (m : gmap string IndexRecord) :
  record_id r = record_id r' ->
  upsert (upsert_batch rs (upsert m r')) r = upsert (upsert_batch rs m) r.
Proof.
  intros Hid. revert m. unfold upsert_batch.
  induction rs as [| x rs IH]; intros m; simpl.
  - unfold upsert. rewrite Hid. apply insert_insert_eq.
  - destruct (decide (record_id x = record_id r')) as [Heq | Hne].
    + f_equal. f_equal. unfold upsert. rewrite Heq. apply insert_insert_eq.
    + rewrite <- (IH (upsert m x)). f_equal. f_equal.
      unfold upsert. by apply insert_insert_ne.
Qed.

Lemma upsert_batch_snoc (rs : list (@IndexRecord Vec)) (r : IndexRecord)
    (m : gmap string IndexRecord) :
  upsert_batch (rs ++ [r]) m = upsert (upsert_batch rs m) r.
Proof. unfold upsert_batch. apply foldl_snoc. Qed.

(** Writing a batch a second time changes nothing. *)
Lemma upsert_batch_idempotent (rs : list (@IndexRecord Vec))
    (m : gmap string IndexRecord) :
  upsert_batch rs (upsert_batch rs m) = upsert_batch rs m.
Proof.
  revert m. induction rs as [| r rs IH] using rev_ind; intros m; [done |].
  rewrite !upsert_batch_snoc.
  rewrite (upsert_batch_absorbs rs r r) by done.
  by rewrite IH.
Qed.

Lemma upsert_batch_dom (rs : list (@IndexRecord Vec)) (m : gmap string IndexRecord)
    (r : IndexRecord) :
  r ∈ rs -> record_id r ∈ dom (upsert_batch rs m).
Proof.
  induction rs as [| x rs IH] using rev_ind; [by intros ?%elem_of_nil |].
  rewrite upsert_batch_snoc. unfold upsert at 1.
  rewrite dom_insert_L.
  intros [Hin | ->%list_elem_of_singleton]%elem_of_app; set_solver.
Qed.

End Pipeline.

Ltac run_components :=
  unfold run, run_with, ingest, ingest_with, bind, invoke, start; simpl.

(** An entry that differs in its head from every entry of an explicit log
    is not in that log. *)
Ltac absent_from_log H :=
  rewrite ?elem_of_cons, ?elem_of_nil in H;
  repeat (destruct H as [H | H]; [discriminate H |]);
  exact H.

(** C4: running the script a second time, on the world the first run left
    behind, is indistinguishable from the first run: the same outcome and
    the same log, hence the same chunk ids, and the same store, record for
    record, so the collection has not grown.  When the first run completes,
    every chunk id it produced is in the store. *)
Theorem second_run_changes_nothing {Vec : Type}
    (identify : string -> Z -> text -> string) (embed : text -> result Vec)
    (w : corpus_world) :
  let first := run (components identify embed) w in
  let second := run (components identify embed) (world first.2) in
  second = first ∧
  produced_ids (trace second.2) = produced_ids (trace first.2) ∧
  collection (world second.2) = collection (world first.2) ∧
  size (collection (world second.2)) = size (collection (world first.2)) ∧
  (first.1 = Completed ->
   ∀ id, id ∈ produced_ids (trace first.2) -> id ∈ dom (collection (world first.2))).
Proof.
  intros first second.
  assert (second = first) as Hsame.
  { subst first second. run_components.
    destruct (read_files (files w)) as [e | ds] eqn:Hread; simpl.
    { by rewrite Hread. }
    destruct (segment_all identify _ ds) as [e | ns] eqn:Hseg; simpl.
    { by rewrite Hread; simpl; rewrite Hseg. }
    destruct (embed_batch embed (map chunk_text ns)) as [e | vs] eqn:Hemb; simpl.
    { by rewrite Hread; simpl; rewrite Hseg; simpl; rewrite Hemb. }
    rewrite Hread; simpl. rewrite Hseg; simpl. rewrite Hemb; simpl.
    by rewrite upsert_batch_idempotent. }
  split_and!; try (by rewrite Hsame).
  clear second Hsame. subst first. run_components.
  destruct (read_files (files w)) as [e | ds] eqn:Hread; simpl; [done |].
  destruct (segment_all identify _ ds) as [e | ns] eqn:Hseg; simpl; [done |].
  destruct (embed_batch embed (map chunk_text ns)) as [e | vs] eqn:Hemb; simpl; [done |].
  intros _ id. unfold produced_ids. simpl. rewrite app_nil_r.
  intros (ch & -> & Hch)%list_elem_of_fmap.
  apply list_elem_of_lookup in Hch as [i Hi].
  apply embed_batch_length in Hemb. rewrite length_map in Hemb.
  destruct (lookup_lt_is_Some_2 vs i) as [v Hv].
  { rewrite Hemb. by eapply lookup_lt_Some. }
  apply (upsert_batch_dom _ _ (make_record ch v)).
  apply list_elem_of_lookup. exists i.
  rewrite lookup_zip_with, Hi. simpl. by rewrite Hv.
Qed.

(** C6: with chunk_overlap >= chunk_size or chunk_size <= 0 the segmenter
    fails with ConfigError on every document, and the script called with
    such parameters dies with ConfigError at the statement that builds the
    splitter: the files have been read by then, but no document is ever
    segmented, nothing is embedded or written, and the world is left as it
    was.  Whatever the reader does, the run does not complete and never
    gets past that statement. *)
Theorem invalid_config_is_fatal {Vec : Type}
    (identify : string -> Z -> text -> string) (embed : text -> result Vec)
    (n k : Z) :
  n <= k ∨ n <= 0 ->
  (∀ d, segment identify d {| chunk_size := n; chunk_overlap := k |} = inl ConfigError) ∧
  (∀ w ds, read_files (files w) = inr ds ->
     run_with (components identify embed) n k w =
       (Aborted ConfigError,
        {| world := w;
           trace := [Call SReader (PReaderArgs "/data" true "auto");
                     Return SReader PNone;
                     Call SLoad PNone; Return SLoad (PDocuments ds);
                     Call SSplitter (PConfig n k); Raise SSplitter ConfigError] |})) ∧
  (∀ w, (run_with (components identify embed) n k w).1 ≠ Completed ∧
        world (run_with (components identify embed) n k w).2 = w ∧
        ∀ s, called s (trace (run_with (components identify embed) n k w).2) ->
             s = SReader ∨ s = SLoad ∨ s = SSplitter).
Proof.
  intros Hbad.
  assert (config_error {| chunk_size := n; chunk_overlap := k |} = true) as Herr
    by (unfold config_error; simpl; lia).
  split_and!.
  - intros d. unfold segment. by rewrite Herr.
  - intros w ds Hread. run_components. rewrite Hread. simpl.
    by rewrite Herr.
  - intros w. run_components.
    destruct (read_files (files w)) as [e | ds]; simpl; [| rewrite Herr; simpl].
    all: split_and!; [done | by destruct w | ].
    all: intros s [arg Hin]; destruct s; auto; exfalso; absent_from_log Hin.
Qed.

Lemma invalid_config_is_fatal_witness :
  (64 <= 512 ∨ 64 <= 0) ∧
  segment concat_identify alphabet {| chunk_size := 64; chunk_overlap := 512 |}
    = inl ConfigError ∧
  (run_with demo_components 64 512 two_file_world).1 = Aborted ConfigError.
Proof.
  split; [left; lia |].
  destruct (invalid_config_is_fatal concat_identify length_embed 64 512) as (Hseg & Hrun & _);
    [left; lia |].
  split; [exact (Hseg alphabet) |].
  unfold demo_components. by erewrite Hrun.
Defined.

(** C9: whatever the libraries do, the splitter is built with the literals
    chunk_size=512 and chunk_overlap=64.  The pair satisfies
    0 < chunk_size and 0 <= chunk_overlap < chunk_size, so the ConfigError
    condition is false for it: the segmenter does not fail with ConfigError
    on any document, and over the modelled components neither building the
    splitter nor segmenting raises. *)
Theorem literal_sizing_is_valid {World Reader Parser VStore Index Doc Node : Type}
    (lib : Library World Reader Parser VStore Index Doc Node) (w : World) :
  (∀ arg, Call SSplitter arg ∈ trace (run lib w).2 -> arg = PConfig 512 64) ∧
  valid_config default_config = true ∧
  (0 < chunk_size default_config ∧ 0 <= chunk_overlap default_config ∧
   chunk_overlap default_config < chunk_size default_config) ∧
  config_error default_config = false ∧
  (∀ identify d, segment identify d default_config ≠ inl ConfigError) ∧
  (∀ (Vec : Type) identify (embed : text -> result Vec) cw e,
     (Raise SSplitter e ∉ trace (run (components identify embed) cw).2) ∧
     (Raise SGetNodes e ∉ trace (run (components identify embed) cw).2)).
Proof.
  split_and!; try done.
  - apply splitter_called_with_literals.
  - intros Vec identify embed cw e. run_components.
    destruct (read_files (files cw)) as [e1 | ds]; simpl.
    { split; intros H; absent_from_log H. }
    destruct (segment_all_valid identify default_config ds eq_refl) as [ns Hns].
    unfold default_config in Hns. rewrite Hns. simpl.
    destruct (embed_batch embed (map chunk_text ns)); simpl.
    all: split; intros H; absent_from_log H.
Qed.

(** C7 on five documents of which the third is rejected by the embedder:
    the index build raises EmbeddingError and the run does not complete.
    It dies with that exception, persist is never entered, and nothing of
    the other four documents is in the store. *)
Lemma embedding_failure_aborts_run :
  limited_embed (raw_text (doc "3.txt" "three")) = inl (EmbeddingError "input too long") ∧
  (run limited_components five_document_world).1
    = Aborted (EmbeddingError "input too long") ∧
  (run limited_components five_document_world).1 ≠ Completed ∧
  ¬ called SPersist (trace (run limited_components five_document_world).2) ∧
  collection (world (run limited_components five_document_world).2) = ∅.
Proof.
  split_and!; try done.
  intros [arg Hin]. simpl in Hin.
  absent_from_log Hin.
Qed.

Lemma failure_aborts_run_witness :
  Raise SFromNodes (EmbeddingError "input too long")
    ∈ trace (run limited_components five_document_world).2 ∧
  (run limited_components five_document_world).1
    = Aborted (EmbeddingError "input too long").
Proof.
  assert (Raise SFromNodes (EmbeddingError "input too long")
            ∈ trace (run limited_components five_document_world).2) as Hin.
  { apply list_elem_of_In. simpl. tauto. }
  split; [exact Hin |].
  exact (proj1 (failure_aborts_run limited_components five_document_world SFromNodes
                  (EmbeddingError "input too long") Hin)).
Defined.

(** * What reaches the libraries *)



Example unsupported_file_is_skipped :
  read_files five_files
  = inr [doc "1.txt" "one"; doc "2.txt" "two"; doc "4.txt" "four"; doc "5.txt" "five"].
Proof. reflexivity. Qed.

(** * The further properties, on the small corpus *)

Lemma return_enters_next_statement_witness :
  Return SLoad (PDocuments [doc "1.txt" "one"; alphabet])
    ∈ trace (run demo_components two_file_world).2 ∧
  called SSplitter (trace (run demo_components two_file_world).2).
Proof.
  assert (Return SLoad (PDocuments [doc "1.txt" "one"; alphabet])
            ∈ trace (run demo_components two_file_world).2) as Hin.
  { apply list_elem_of_In. simpl. tauto. }
  split; [exact Hin |].
  exact (return_enters_next_statement demo_components two_file_world SLoad _ Hin).
Defined.

Lemma statements_before_failure_returned_witness :
  Raise SFromNodes (EmbeddingError "input too long")
    ∈ trace (run limited_components five_document_world).2 ∧
  entered (trace (run limited_components five_document_world).2)
    = [SReader; SLoad; SSplitter; SGetNodes; SStore; SFromNodes].
Proof.
  assert (Raise SFromNodes (EmbeddingError "input too long")
            ∈ trace (run limited_components five_document_world).2) as Hin.
  { apply list_elem_of_In. simpl. tauto. }
  split; [exact Hin |].
  exact (proj1 (statements_before_failure_returned limited_components
                  five_document_world SFromNodes
                  (EmbeddingError "input too long") Hin)).
Defined.
